(** * Shallow embedding of the generic chunk parser ([src/src/lib.rs]).

    The parser traits are generic over a reader [R : Read + Seek]; the
    embedding is generic in the same way: a section takes the reader type
    and its [seek], [stream_position] and [read_exact] operations.  The
    parser struct of the tests ([IFFParserFull { reader, depth: u8 }]) is
    the state threaded through a small state/error monad.

    Integer arithmetic follows Rust's release profile: [u64] and [u8]
    additions wrap around (a build with overflow checks would panic at the
    same places instead). *)

From Stdlib Require Import ZArith List Bool Lia.
From Stdlib Require Import Strings.Byte.
Import ListNotations.
Open Scope Z_scope.

(** ** Machine integers *)

Definition u64_modulus : Z := 2 ^ 64.
Definition i64_max : Z := 2 ^ 63 - 1.

(** [a + b] on [u64] (wrapping). *)
Definition add64 (a b : Z) : Z := (a + b) mod u64_modulus.

(** [offset as i64] for a [u64] offset: two's complement reinterpretation. *)
Definition u64_as_i64 (x : Z) : Z :=
  if x <=? i64_max then x else x - u64_modulus.

(** [-(x)] on [i64] (wrapping: [-(i64::MIN)] is [i64::MIN]). *)
Definition neg_i64 (x : Z) : Z :=
  if x =? - 2 ^ 63 then x else - x.

(** ** Errors: [enum Error] and [std::io::Error] *)

Inductive IoErrorKind : Type :=
| UnexpectedEof
| InvalidInput
| NotSeekable
| OtherIo.

Inductive Error : Type :=
| IoError (e : IoErrorKind)   (* Forwarded std::io::Error *)
| ParseError                  (* General parser error *)
| SizeOverflow                (* Size type overflow error *)
| Unimplemented               (* Unimplemented code paths *)
| UnknownChunk.               (* Unknown chunk type *)

(** [std::io::Result<A>] *)
Inductive IoResult (A : Type) : Type :=
| IoOk (a : A)
| IoErr (e : IoErrorKind).
Arguments IoOk {A} a.
Arguments IoErr {A} e.

(** [Result<A>] of the crate.  [NoFuel] is the outcome of a computation
    that has not returned within the step budget given to the loop (the
    Rust [loop] has no bound). *)
Inductive Res (A : Type) : Type :=
| Ok (a : A)
| Err (e : Error)
| NoFuel.
Arguments Ok {A} a.
Arguments Err {A} e.
Arguments NoFuel {A}.

(** [std::io::SeekFrom] *)
Inductive SeekFrom : Type :=
| Start (n : Z)      (* u64 *)
| End (n : Z)        (* i64 *)
| Current (n : Z).   (* i64 *)

(** ** Primitive integer types ([T: PrimInt]) *)

Record PrimTy : Type := mkPrimTy { size_of : nat; signed : bool }.

Definition u8_t := mkPrimTy 1 false.
Definition u16_t := mkPrimTy 2 false.
Definition u32_t := mkPrimTy 4 false.
Definition u64_t := mkPrimTy 8 false.

Definition byte_val (b : byte) : Z := Z.of_N (Byte.to_N b).

(** The integer whose memory image, lowest address first, is [bs] on a
    little-endian machine. *)
Fixpoint decode_le (bs : list byte) : Z :=
  match bs with
  | [] => 0
  | b :: bs' => byte_val b + 256 * decode_le bs'
  end.

(** The same on a big-endian machine. *)
Definition decode_be (bs : list byte) : Z :=
  fold_left (fun acc b => acc * 256 + byte_val b) bs 0.

(** Value of a bit pattern of type [ty] (two's complement when signed). *)
Definition value_of (ty : PrimTy) (bits : Z) : Z :=
  let w := 8 * Z.of_nat (size_of ty) in
  if signed ty && (2 ^ (w - 1) <=? bits) then bits - 2 ^ w else bits.

(** [T::swap_bytes]: moves the low byte out of [x] into the accumulator,
    [size_of T] times. *)
Fixpoint swap_aux (n : nat) (x acc : Z) : Z :=
  match n with
  | O => acc
  | S n' => swap_aux n' (Z.shiftr x 8) (acc * 256 + Z.land x 255)
  end.

Definition swap_bytes (ty : PrimTy) (bits : Z) : Z := swap_aux (size_of ty) bits 0.

(** ** The parser engine *)

Section Engine.

(** The inner reader [R: Read + Seek]. *)
Variable R : Type.
Variable seek : SeekFrom -> R -> IoResult Z * R.
Variable stream_position : R -> IoResult Z * R.
Variable read_exact : nat -> R -> IoResult (list byte) * R.
(** Byte order of the machine ([read_uninit] copies bytes into memory). *)
Variable native_little : bool.

(** A parser value: [reader] and [depth: u8]. *)
Record Parser : Type := mkParser { reader : R; depth : Z }.

Definition M (A : Type) : Type := Parser -> Res A * Parser.

Definition ret {A} (a : A) : M A := fun st => (Ok a, st).
Definition fail {A} (e : Error) : M A := fun st => (Err e, st).
Definition bind {A B} (m : M A) (k : A -> M B) : M B :=
  fun st => match m st with
            | (Ok a, st') => k a st'
            | (Err e, st') => (Err e, st')
            | (NoFuel, st') => (NoFuel, st')
            end.

Local Notation "x <- m ;; k" := (bind m (fun x => k))
  (at level 61, m at next level, right associativity).
Local Notation "m ;;; k" := (bind m (fun _ => k))
  (at level 61, right associativity).

(** [self.reader().op()?]: run a reader operation, converting its
    [io::Error] with [From<IoError> for Error]. *)
Definition io {A} (op : R -> IoResult A * R) : M A :=
  fun st => let '(r, rd') := op (reader st) in
            (match r with IoOk a => Ok a | IoErr e => Err (IoError e) end,
             mkParser rd' (depth st)).

(** [ParserSeek] *)
Definition seek_to (offset : Z) : M Z := io (seek (Start offset)).

Definition skip (offset : Z) : M Z :=
  io (seek (Current (u64_as_i64 offset))) ;;; ret offset.

Definition rewind (offset : Z) : M Z :=
  io (seek (Current (neg_i64 (u64_as_i64 offset)))).

Definition position : M Z := io stream_position.

(** [ParserDepth] *)
Definition depth_of : M Z := fun st => (Ok (depth st), st).

Definition push : M unit :=
  fun st => (Ok tt, mkParser (reader st) ((depth st + 1) mod 256)).

Definition pop : M unit :=
  fun st => (Ok tt, mkParser (reader st) ((depth st - 1) mod 256)).

(** [ReaderUninit::read_uninit]: [read_exact] into the [size_of::<T>()]
    bytes of the value, which are then the value's memory image. *)
Definition read_uninit_bits (ty : PrimTy) : M Z :=
  bs <- io (read_exact (size_of ty)) ;;
  ret (if native_little then decode_le bs else decode_be bs).

(** [ParserRead::read] and [ParserRead::read_be] *)
Definition read (ty : PrimTy) : M Z :=
  bits <- read_uninit_bits ty ;; ret (value_of ty bits).

Definition read_be (ty : PrimTy) : M Z :=
  bits <- read_uninit_bits ty ;; ret (value_of ty (swap_bytes ty bits)).

(** [ChunkParser::parse_loop]: [hdr] is [HeaderParser::header], [f] the
    [ParserFn]; [fuel] bounds the number of iterations. *)
Fixpoint parse_loop {H : Type} (fuel : nat) (hdr : M H) (f : H -> M Z)
    (total_size : Z) : M unit :=
  match fuel with
  | O => fun st => (NoFuel, st)
  | S fuel' =>
      header <- hdr ;;
      start <- position ;;
      size <- f header ;;
      let end_ := add64 start size in
      pos <- position ;;
      if pos =? total_size then ret tt
      else if negb (pos =? end_) then fail ParseError
      else parse_loop fuel' hdr f total_size
  end.

(** [ChunkParser::parse] *)
Definition parse {H : Type} (fuel : nat) (hdr : M H) (f : H -> M Z) : M unit :=
  total_size <- io (seek (End 0)) ;;
  io (seek (Start 0)) ;;;
  parse_loop fuel hdr f total_size.

(** [ChunkParser::subchunks].  The [?] on [stream_position] inside the
    matched block returns from [subchunks] itself, before [self.pop()]. *)
Definition subchunks {H : Type} (fuel : nat) (hdr : M H) (f : H -> M Z)
    (total_size : Z) : M unit :=
  push ;;;
  fun st =>
    match position st with
    | (Ok pos, st1) =>
        let '(res, st2) := parse_loop fuel hdr f (add64 pos total_size) st1 in
        match res with
        | NoFuel => (NoFuel, st2)
        | _ => let '(_, st3) := pop st2 in (res, st3)
        end
    | (Err e, st1) => (Err e, st1)
    | (NoFuel, st1) => (NoFuel, st1)
    end.

End Engine.

Arguments mkParser {R} reader depth.
Arguments reader {R} p.
Arguments depth {R} p.

Arguments ret {R A} a _.
Arguments fail {R A} e _.
Arguments bind {R A B} m k _.
Arguments io {R A} op _.
Arguments push {R} _.
Arguments pop {R} _.
Arguments position {R} stream_position _.
Arguments depth_of {R} _.

Notation "x <- m ;; k" := (bind m (fun x => k))
  (at level 61, m at next level, right associativity).
Notation "m ;;; k" := (bind m (fun _ => k))
  (at level 61, right associativity).

(** ** [std::io::Cursor<&[u8]>] as the reader *)

Record Cursor : Type := mkCursor { inner : list byte; pos : Z }.

Definition cursor_len (c : Cursor) : Z := Z.of_nat (length (inner c)).

(** [base_pos.checked_add_signed(offset)] *)
Definition checked_add_signed (base off : Z) : option Z :=
  let n := base + off in
  if (0 <=? n) && (n <? u64_modulus) then Some n else None.

(** [impl Seek for Cursor::seek] *)
Definition cursor_seek (style : SeekFrom) (c : Cursor) : IoResult Z * Cursor :=
  match style with
  | Start n => (IoOk n, mkCursor (inner c) n)
  | End n | Current n =>
      let base_pos := match style with Current _ => pos c | _ => cursor_len c end in
      match checked_add_signed base_pos n with
      | Some p => (IoOk p, mkCursor (inner c) p)
      | None => (IoErr InvalidInput, c)
      end
  end.

(** [Cursor::stream_position] returns [self.pos]. *)
Definition cursor_stream_position (c : Cursor) : IoResult Z * Cursor := (IoOk (pos c), c).

(** [Cursor::read_exact]: on a short read the cursor is placed at EOF. *)
Definition cursor_read_exact (n : nat) (c : Cursor) : IoResult (list byte) * Cursor :=
  let rest := if pos c <=? cursor_len c then skipn (Z.to_nat (pos c)) (inner c) else [] in
  if Nat.leb n (length rest)
  then (IoOk (firstn n rest), mkCursor (inner c) (pos c + Z.of_nat n))
  else (IoErr UnexpectedEof, mkCursor (inner c) (cursor_len c)).

Definition CParser := Parser Cursor.
Definition CM (A : Type) := M Cursor A.

Definition c_parse_loop {H} := @parse_loop Cursor cursor_stream_position H.
Definition c_subchunks {H} := @subchunks Cursor cursor_stream_position H.
Definition c_parse {H} := @parse Cursor cursor_seek cursor_stream_position H.
Definition c_position := @position Cursor cursor_stream_position.
(** Little-endian host. *)
Definition c_read := @read Cursor cursor_read_exact true.
Definition c_read_be := @read_be Cursor cursor_read_exact true.
Definition c_skip := @skip Cursor cursor_seek.

(** [Cursor::new(data)] wrapped in a parser at depth 0. *)
Definition cursor_parser (data : list byte) : CParser := mkParser (mkCursor data 0) 0.

(** ** The IFF header and data of the crate's tests *)

Record IFFHeader : Type := mkIFFHeader { typeid : list byte; length : Z }.

(** [TypeId] is a four-byte array, read as its memory image. *)
Definition read_typeid : CM (list byte) := io (cursor_read_exact 4).

(** [IFFHeader { typeid: self.read()?, length: self.read_be()? }] *)
Definition iff_header : CM IFFHeader :=
  t <- read_typeid ;; l <- c_read_be u32_t ;; ret (mkIFFHeader t l).

(** [|parser, header| parser.skip(header.length as u64)] *)
Definition skip_body (h : IFFHeader) : CM Z := c_skip (length h).

Definition DATA : list byte :=
  [ x46; x4f; x52; x4d;  x00; x00; x00; x10;  x54; x45; x53; x54;
    x54; x45; x53; x54;  x00; x00; x00; x04;  x01; x02; x03; x04 ].

Definition FORM : list byte := [x46; x4f; x52; x4d].

Definition typeid_eqb (a b : list byte) : bool :=
  (Nat.eqb (List.length a) (List.length b)) && forallb (fun p => Byte.eqb (fst p) (snd p)) (combine a b).

(** A group body: a [FORM] chunk holds a four-byte form type followed by
    subchunks; other chunks are skipped. *)
Definition group_body (fuel : nat) (h : IFFHeader) : CM Z :=
  if typeid_eqb (typeid h) FORM
  then read_typeid ;;; c_subchunks fuel iff_header skip_body (length h - 4) ;;; ret (length h)
  else c_skip (length h).

Example with_macro_ok :
  fst (c_parse 10 iff_header skip_body (cursor_parser DATA)) = Ok tt.
Proof. reflexivity. Qed.

Example scenario_A :
  let '(r, st) := c_parse 10 iff_header (group_body 10) (cursor_parser DATA) in
  r = Ok tt /\ depth st = 0 /\ pos (reader st) = 24.
Proof. vm_compute. auto. Qed.

(** A body that skips the payload but declares size 0. *)
Definition short_declared_body (h : IFFHeader) : CM Z := c_skip (length h) ;;; ret 0.

(** A body that skips the payload but declares the largest [u64]. *)
Definition huge_declared_body (h : IFFHeader) : CM Z :=
  c_skip (length h) ;;; ret (u64_modulus - 1).

(** ** A reader whose seeks fail: a [BufReader<File>] over a pipe *)

Record Pipe : Type := mkPipe { pipe_data : list byte }.

Definition pipe_stream_position (p : Pipe) : IoResult Z * Pipe := (IoErr NotSeekable, p).

(** ** The spec's error taxonomy, mapped from the crate's [Error] *)



(** A monadic action that leaves a [u8] depth unchanged when it succeeds. *)
Definition keeps_depth {R A} (m : M R A) : Prop :=
  forall st v st', 0 <= depth st < 256 -> m st = (Ok v, st') -> depth st' = depth st.

(** ** General lemmas *)


Lemma io_depth {R A} (op : R -> IoResult A * R) st :
  depth (snd (io op st)) = depth st.
Proof. unfold io; destruct (op (reader st)) as [[] ?]; reflexivity. Qed.

Lemma io_reader {R A} (op : R -> IoResult A * R) st :
  reader (snd (io op st)) = snd (op (reader st)).
Proof. unfold io; destruct (op (reader st)) as [[] ?]; reflexivity. Qed.

Lemma keeps_depth_bind {R A B} (m : M R A) (k : A -> M R B) :
  keeps_depth m -> (forall a, keeps_depth (k a)) -> keeps_depth (bind m k).
Proof.
  intros Hm Hk st v st' Hr E; unfold bind in E.
  destruct (m st) as [[a| |] st1] eqn:Em; try discriminate.
  pose proof (Hm _ _ _ Hr Em) as D1.
  rewrite (Hk a st1 v st'); [assumption | lia | assumption].
Qed.

Lemma keeps_depth_ret {R A} (a : A) : keeps_depth (@ret R A a).
Proof. intros st v st' _ E; injection E; intros; subst; reflexivity. Qed.

Lemma keeps_depth_io {R A} (op : R -> IoResult A * R) : keeps_depth (io op).
Proof.
  intros st v st' _ E. pose proof (io_depth op st) as D. rewrite E in D. exact D.
Qed.

Lemma keeps_depth_parse_loop {R H} sp fuel (hdr : M R H) f total :
  keeps_depth hdr -> (forall h, keeps_depth (f h)) ->
  keeps_depth (parse_loop R sp fuel hdr f total).
Proof.
  intros Hh Hf. induction fuel as [|fuel IH]; simpl.
  - intros st v st' _ E; discriminate.
  - apply keeps_depth_bind; [exact Hh|intros h].
    apply keeps_depth_bind; [apply keeps_depth_io|intros start].
    apply keeps_depth_bind; [apply Hf|intros size].
    apply keeps_depth_bind; [apply keeps_depth_io|intros p].
    destruct (p =? total); [apply keeps_depth_ret|].
    destruct (negb _); [intros st v st' _ E; discriminate | exact IH].
Qed.

Lemma subchunks_keeps_depth {R H} sp fuel (hdr : M R H) f s :
  keeps_depth hdr -> (forall h, keeps_depth (f h)) ->
  keeps_depth (subchunks R sp fuel hdr f s).
Proof.
  intros Hh Hf st v st' Hr E. unfold subchunks, bind, push in E.
  set (st0 := mkParser (reader st) ((depth st + 1) mod 256)) in E.
  assert (D0 : 0 <= depth st0 < 256) by (simpl; apply Z.mod_pos_bound; lia).
  destruct (position sp st0) as [[p| |] st1] eqn:Ep; try discriminate.
  destruct (parse_loop R sp fuel hdr f (add64 p s) st1) as [r st2] eqn:El.
  destruct r as [u| |]; simpl in E; try discriminate.
  injection E as <- <-. simpl.
  assert (D1 : depth st1 = depth st0).
  { unfold position in Ep. pose proof (io_depth sp st0) as D. rewrite Ep in D. exact D. }
  assert (D2 : depth st2 = depth st1).
  { apply (keeps_depth_parse_loop sp fuel hdr f (add64 p s) Hh Hf st1 u); [lia|exact El]. }
  rewrite D2, D1; simpl.
  rewrite Zminus_mod_idemp_l. replace (depth st + 1 - 1) with (depth st) by lia.
  apply Z.mod_small; lia.
Qed.

(** One iteration of [parse_loop] once the header, the two position queries
    and the body have all succeeded. *)
Lemma parse_loop_step {R H} sp fuel (hdr : M R H) f total st h st1 start st2 size st3 p st4 :
  hdr st = (Ok h, st1) ->
  position sp st1 = (Ok start, st2) ->
  f h st2 = (Ok size, st3) ->
  position sp st3 = (Ok p, st4) ->
  parse_loop R sp (S fuel) hdr f total st =
  (if p =? total then (Ok tt, st4)
   else if negb (p =? add64 start size) then (Err ParseError, st4)
   else parse_loop R sp fuel hdr f total st4).
Proof.
  intros E1 E2 E3 E4. simpl. unfold bind at 1. rewrite E1.
  unfold bind at 1. rewrite E2. unfold bind at 1. rewrite E3.
  unfold bind at 1. rewrite E4.
  destruct (p =? total); [reflexivity|].
  destruct (negb _); reflexivity.
Qed.

(** ** Claim C1 *)

(** C1 (counterexample): with the 24-byte test data, a body that skips the
    16-byte payload but declares size 0 (start 8, end 8, position 24) makes
    the whole parse succeed: the position equals the region's end, which is
    checked before the size. *)
Lemma C1_counterexample :
  short_declared_body (mkIFFHeader FORM 16) (mkParser (mkCursor DATA 8) 0)
    = (Ok 0, mkParser (mkCursor DATA 24) 0) /\
  add64 8 0 <> 24 /\
  fst (c_parse 10 iff_header short_declared_body (cursor_parser DATA)) = Ok tt.
Proof. vm_compute. split; [reflexivity | split; [discriminate | reflexivity]]. Qed.

(** C1 (amended): when the position after the body differs from
    [start + declared size] (u64 addition), the iteration fails with
    [ParseError] unless the position equals [total_size], in which case the
    loop returns [Ok]. *)
Theorem C1_mismatch_parse_error {R H} sp fuel (hdr : M R H) f total st
    h st1 start st2 size st3 p st4 :
  hdr st = (Ok h, st1) ->
  position sp st1 = (Ok start, st2) ->
  f h st2 = (Ok size, st3) ->
  position sp st3 = (Ok p, st4) ->
  p <> add64 start size ->
  parse_loop R sp (S fuel) hdr f total st =
  (if p =? total then (Ok tt, st4) else (Err ParseError, st4)).
Proof.
  intros E1 E2 E3 E4 Hne. rewrite (parse_loop_step sp fuel hdr f total st h st1 start st2 size st3 p st4 E1 E2 E3 E4).
  destruct (p =? total); [reflexivity|].
  apply Z.eqb_neq in Hne. rewrite Hne. reflexivity.
Qed.

Lemma C1_witness :
  iff_header (mkParser (mkCursor DATA 0) 0)
    = (Ok (mkIFFHeader FORM 16), mkParser (mkCursor DATA 8) 0) /\
  c_parse_loop 1 iff_header short_declared_body 24 (mkParser (mkCursor DATA 0) 0)
    = (Ok tt, mkParser (mkCursor DATA 24) 0).
Proof.
  split; [vm_compute; reflexivity|].
  unfold c_parse_loop.
  rewrite (C1_mismatch_parse_error cursor_stream_position 0 iff_header short_declared_body 24
             (mkParser (mkCursor DATA 0) 0) (mkIFFHeader FORM 16) (mkParser (mkCursor DATA 8) 0)
             8 (mkParser (mkCursor DATA 8) 0) 0 (mkParser (mkCursor DATA 24) 0)
             24 (mkParser (mkCursor DATA 24) 0));
    [reflexivity | vm_compute; reflexivity | reflexivity | vm_compute; reflexivity
    | reflexivity | vm_compute; discriminate].
Defined.

(** ** Claim C3 *)

(** C3 (counterexample): a body declaring size [2^64 - 1] for the chunk that
    starts at offset 8 ([8 + size] exceeds [u64::MAX]) does not make the
    parse fail with [SizeOverflow]: the sum wraps to 7 and the parse
    succeeds. *)
Lemma C3_counterexample :
  8 + (u64_modulus - 1) > u64_modulus - 1 /\
  add64 8 (u64_modulus - 1) = 7 /\
  fst (c_parse 10 iff_header huge_declared_body (cursor_parser DATA)) = Ok tt.
Proof. vm_compute. split; [reflexivity | split; reflexivity]. Qed.

(** C3 (amended): [end = start + size] is an unchecked u64 addition; the
    loop itself never produces [SizeOverflow]: if neither the header parser
    nor the body function returns it, neither does [parse_loop]. *)
Theorem C3_no_size_overflow {R H} sp fuel (hdr : M R H) f total :
  (forall st st', hdr st <> (Err SizeOverflow, st')) ->
  (forall h st st', f h st <> (Err SizeOverflow, st')) ->
  forall st st', parse_loop R sp fuel hdr f total st <> (Err SizeOverflow, st').
Proof.
  intros Hh Hf. induction fuel as [|fuel IH]; intros st st' E; simpl in E; [discriminate|].
  unfold bind at 1 in E. destruct (hdr st) as [[h| e|] st1] eqn:E1.
  2:{ injection E as -> ->. exact (Hh _ _ E1). }
  2:{ discriminate. }
  unfold bind at 1 in E. destruct (position sp st1) as [[start| e|] st2] eqn:E2.
  2:{ injection E as -> ->. unfold position, io in E2.
      destruct (sp (reader st1)) as [[] ?]; discriminate. }
  2:{ discriminate. }
  unfold bind at 1 in E. destruct (f h st2) as [[size| e|] st3] eqn:E3.
  2:{ injection E as -> ->. exact (Hf _ _ _ E3). }
  2:{ discriminate. }
  unfold bind at 1 in E. destruct (position sp st3) as [[p| e|] st4] eqn:E4.
  2:{ injection E as -> ->. unfold position, io in E4.
      destruct (sp (reader st3)) as [[] ?]; discriminate. }
  2:{ discriminate. }
  destruct (p =? total); [discriminate|].
  destruct (negb _); [discriminate|]. exact (IH _ _ E).
Qed.

Lemma iff_header_no_overflow : forall st st', iff_header st <> (Err SizeOverflow, st').
Proof.
  intros st st'. unfold iff_header, read_typeid, c_read_be, read_be, read_uninit_bits, bind, io, ret.
  destruct (cursor_read_exact 4 (reader st)) as [[a|e] r1]; simpl; [|congruence].
  destruct (cursor_read_exact 4 r1) as [[b|e] r2]; simpl; congruence.
Qed.

Lemma skip_body_no_overflow : forall h st st', skip_body h st <> (Err SizeOverflow, st').
Proof.
  intros h st st'. unfold skip_body, c_skip, skip, bind, io, ret.
  destruct (cursor_seek _ (reader st)) as [[a|e] r1]; congruence.
Qed.

Lemma C3_witness :
  fst (c_parse_loop 10 iff_header skip_body 24 (cursor_parser DATA)) <> Err SizeOverflow.
Proof.
  destruct (c_parse_loop 10 iff_header skip_body 24 (cursor_parser DATA)) as [r st'] eqn:E.
  simpl. intros ->. revert E.
  apply (C3_no_size_overflow cursor_stream_position 10 iff_header skip_body 24);
    [exact iff_header_no_overflow | exact skip_body_no_overflow].
Defined.

(** ** Claim C4 *)

Lemma position_inv {R} sp (st : Parser R) p st' :
  position sp st = (Ok p, st') ->
  sp (reader st) = (IoOk p, reader st') /\ depth st' = depth st.
Proof.
  unfold position, io. destruct (sp (reader st)) as [[q|e] r]; intros E; inversion E; subst.
  split; reflexivity.
Qed.

(** The only success exit of [parse_loop]: the last position query returned
    [total_size]; with a side-effect-free [stream_position] the reader is
    still there. *)
Lemma parse_loop_ok_position {R H} sp fuel (hdr : M R H) f total :
  (forall r, snd (sp r) = r) ->
  forall st st', parse_loop R sp fuel hdr f total st = (Ok tt, st') ->
  sp (reader st') = (IoOk total, reader st').
Proof.
  intros Hpure. induction fuel as [|fuel IH]; intros st st' E; simpl in E; [discriminate|].
  unfold bind at 1 in E. destruct (hdr st) as [[h| e|] st1]; try discriminate.
  unfold bind at 1 in E. destruct (position sp st1) as [[start| e|] st2]; try discriminate.
  unfold bind at 1 in E. destruct (f h st2) as [[size| e|] st3]; try discriminate.
  unfold bind at 1 in E. destruct (position sp st3) as [[p| e|] st4] eqn:E4; try discriminate.
  destruct (p =? total) eqn:Et.
  - injection E as <-. apply Z.eqb_eq in Et; subst p.
    destruct (position_inv sp st3 total st4 E4) as [Esp _].
    pose proof (Hpure (reader st3)) as Hp. rewrite Esp in Hp. simpl in Hp.
    rewrite Hp. rewrite Esp, Hp. reflexivity.
  - destruct (negb _); [discriminate|]. exact (IH _ _ E).
Qed.

(** C4: [parse_loop] succeeds only when, after a chunk body, the position
    equals [total_size]; when that happens it stops with success; when the
    chunk ends at its declared end short of [total_size], the loop reads
    another header and a failure of that read is the loop's result. *)
Theorem C4_exact_termination {R H} sp fuel (hdr : M R H) f total :
  (forall r, snd (sp r) = r) ->
  (forall st st', parse_loop R sp fuel hdr f total st = (Ok tt, st') ->
                  sp (reader st') = (IoOk total, reader st')) /\
  (forall st h st1 start st2 size st3 p st4,
     hdr st = (Ok h, st1) -> position sp st1 = (Ok start, st2) ->
     f h st2 = (Ok size, st3) -> position sp st3 = (Ok p, st4) ->
     (p = total -> parse_loop R sp (S fuel) hdr f total st = (Ok tt, st4)) /\
     (p = add64 start size -> p <> total ->
      forall e st5, hdr st4 = (Err e, st5) ->
      parse_loop R sp (S (S fuel)) hdr f total st = (Err e, st5))).
Proof.
  intros Hpure. split; [apply parse_loop_ok_position; exact Hpure|].
  intros st h st1 start st2 size st3 p st4 E1 E2 E3 E4. split.
  - intros ->. rewrite (parse_loop_step sp fuel hdr f total st h st1 start st2 size st3 total st4 E1 E2 E3 E4).
    rewrite Z.eqb_refl. reflexivity.
  - intros Hend Hne e st5 E5.
    rewrite (parse_loop_step sp (S fuel) hdr f total st h st1 start st2 size st3 p st4 E1 E2 E3 E4).
    apply Z.eqb_neq in Hne. rewrite Hne. rewrite Hend, Z.eqb_refl. simpl.
    unfold bind at 1. rewrite E5. reflexivity.
Qed.

(** A region holding one 12-byte [TEST] chunk followed by two stray bytes. *)
Definition SHORT : list byte :=
  [ x54; x45; x53; x54;  x00; x00; x00; x04;  x01; x02; x03; x04;  x00; x00 ].

Lemma C4_witness :
  cursor_stream_position (reader (snd (c_parse_loop 10 iff_header skip_body 24 (cursor_parser DATA))))
    = (IoOk 24, reader (snd (c_parse_loop 10 iff_header skip_body 24 (cursor_parser DATA)))) /\
  c_parse_loop 2 iff_header skip_body 14 (cursor_parser SHORT)
    = (Err (IoError UnexpectedEof), mkParser (mkCursor SHORT 14) 0).
Proof.
  destruct (C4_exact_termination cursor_stream_position 10 iff_header skip_body 24
              (fun r => eq_refl)) as [Pa _].
  destruct (C4_exact_termination cursor_stream_position 0 iff_header skip_body 14
              (fun r => eq_refl)) as [_ Pb].
  split.
  - apply (Pa (cursor_parser DATA)). vm_compute. reflexivity.
  - apply (proj2 (Pb (cursor_parser SHORT) (mkIFFHeader [x54; x45; x53; x54] 4)
              (mkParser (mkCursor SHORT 8) 0) 8 (mkParser (mkCursor SHORT 8) 0)
              4 (mkParser (mkCursor SHORT 12) 0) 12 (mkParser (mkCursor SHORT 12) 0)
              eq_refl eq_refl eq_refl eq_refl)).
    + reflexivity.
    + discriminate.
    + vm_compute. reflexivity.
Defined.

(** ** Claim C5 *)

Lemma keeps_depth_skip {R} sk n : keeps_depth (@skip R sk n).
Proof. apply keeps_depth_bind; [apply keeps_depth_io | intros; apply keeps_depth_ret]. Qed.

Lemma iff_header_keeps_depth : keeps_depth iff_header.
Proof.
  unfold iff_header, read_typeid, c_read_be, read_be, read_uninit_bits.
  repeat (apply keeps_depth_bind; intros; try apply keeps_depth_io; try apply keeps_depth_ret).
Qed.

Lemma skip_body_keeps_depth : forall h, keeps_depth (skip_body h).
Proof. intros h. apply keeps_depth_skip. Qed.

Lemma group_body_keeps_depth : forall fuel h, keeps_depth (group_body fuel h).
Proof.
  intros fuel h. unfold group_body. destruct (typeid_eqb _ _); [|apply keeps_depth_skip].
  apply keeps_depth_bind; [apply keeps_depth_io|intros].
  apply keeps_depth_bind; [|intros; apply keeps_depth_ret].
  apply subchunks_keeps_depth; [exact iff_header_keeps_depth | exact skip_body_keeps_depth].
Qed.

(** C5: [parse] takes the length from [seek(End(0))], seeks to offset 0 and
    runs the loop over [0, total length); when it succeeds, the position is
    the total length and the depth is the one before the parse (for header
    and body functions that leave the depth unchanged when they succeed,
    e.g. bodies built from reads, skips and [subchunks]). *)
Theorem C5_parse_round_trip {R H} sk sp fuel (hdr : M R H) f (st st' : Parser R) :
  (forall r, snd (sp r) = r) ->
  keeps_depth hdr -> (forall h, keeps_depth (f h)) ->
  0 <= depth st < 256 ->
  parse R sk sp fuel hdr f st = (Ok tt, st') ->
  exists total r0 z r1,
    sk (End 0) (reader st) = (IoOk total, r0) /\
    sk (Start 0) r0 = (IoOk z, r1) /\
    parse_loop R sp fuel hdr f total (mkParser r1 (depth st)) = (Ok tt, st') /\
    sp (reader st') = (IoOk total, reader st') /\
    depth st' = depth st.
Proof.
  intros Hpure Hh Hf Hd E. unfold parse, bind, io in E.
  destruct (sk (End 0) (reader st)) as [[total|e] r0] eqn:E0; simpl in E; [|discriminate].
  destruct (sk (Start 0) r0) as [[z|e] r1] eqn:E1; simpl in E; [|discriminate].
  exists total, r0, z, r1. split; [first [exact E0 | reflexivity]|]. split; [first [exact E1 | reflexivity]|]. split; [exact E|].
  split; [exact (parse_loop_ok_position sp fuel hdr f total Hpure _ _ E)|].
  apply (keeps_depth_parse_loop sp fuel hdr f total Hh Hf (mkParser r1 (depth st)) tt st' Hd E).
Qed.

Lemma C5_witness :
  exists total r0 z r1,
    cursor_seek (End 0) (mkCursor DATA 0) = (IoOk total, r0) /\
    cursor_seek (Start 0) r0 = (IoOk z, r1) /\
    c_parse_loop 10 iff_header (group_body 10) total (mkParser r1 0)
      = (Ok tt, mkParser (mkCursor DATA 24) 0) /\
    cursor_stream_position (mkCursor DATA 24) = (IoOk total, mkCursor DATA 24) /\
    0 = 0.
Proof.
  apply (C5_parse_round_trip cursor_seek cursor_stream_position 10 iff_header (group_body 10)
           (cursor_parser DATA) (mkParser (mkCursor DATA 24) 0)).
  - intros r. reflexivity.
  - exact iff_header_keeps_depth.
  - exact (group_body_keeps_depth 10).
  - simpl. lia.
  - vm_compute. reflexivity.
Defined.

(** ** Claim C2 *)

(** C2 (code_bug): over a reader whose [stream_position] fails (a
    [BufReader<File>] on a pipe), [subchunks] called at depth 0 returns the
    I/O error with the depth left at 1: the [?] skips [self.pop()]. *)
Theorem C2_depth_stuck_on_position_error {H} fuel (hdr : M Pipe H) f s data :
  subchunks Pipe pipe_stream_position fuel hdr f s (mkParser (mkPipe data) 0)
    = (Err (IoError NotSeekable), mkParser (mkPipe data) 1).
Proof. reflexivity. Qed.

(** ** Claim C6 *)

(** C6 (counterexample): at position 8, [subchunks] with group size
    [2^64 - 1] runs the nested loop with end bound 7, not [8 + (2^64 - 1)]. *)
Lemma C6_counterexample :
  let st := mkParser (mkCursor DATA 8) 0 in
  c_subchunks 10 iff_header skip_body (u64_modulus - 1) st
    = (let '(r, st2) := c_parse_loop 10 iff_header skip_body 7 (mkParser (mkCursor DATA 8) 1) in
       (r, snd (pop st2))) /\
  7 <> 8 + (u64_modulus - 1).
Proof. vm_compute. split; [reflexivity | discriminate]. Qed.

(** C6 (amended): [subchunks] increments the depth, reads the position [p]
    and runs the nested loop with end bound [(p + s) mod 2^64] (exactly
    [p + s] when that fits in a [u64]); once the loop returns, whatever its
    result, the depth is decremented and that result is returned. *)
Theorem C6_subchunks_bound {R H} sp fuel (hdr : M R H) f s (st : Parser R) p st1 r st2 :
  position sp (snd (push st)) = (Ok p, st1) ->
  parse_loop R sp fuel hdr f (add64 p s) st1 = (r, st2) ->
  r <> NoFuel ->
  depth st1 = (depth st + 1) mod 256 /\
  subchunks R sp fuel hdr f s st = (r, snd (pop st2)) /\
  (0 <= p -> 0 <= s -> p + s < u64_modulus -> add64 p s = p + s).
Proof.
  intros Ep El Hr. split.
  - destruct (position_inv sp _ p st1 Ep) as [_ D]. rewrite D. reflexivity.
  - split.
    + unfold subchunks, bind at 1. simpl in Ep |- *. rewrite Ep, El.
      destruct r; [reflexivity | reflexivity | contradiction].
    + intros. unfold add64. apply Z.mod_small; lia.
Qed.

Lemma C6_witness :
  let st := mkParser (mkCursor DATA 8) 0 in
  depth (mkParser (mkCursor DATA 8) 1) = (0 + 1) mod 256 /\
  c_subchunks 10 iff_header skip_body 16 st
    = (Err (IoError UnexpectedEof), snd (pop (mkParser (mkCursor DATA 24) 1))) /\
  (0 <= 8 -> 0 <= 16 -> 8 + 16 < u64_modulus -> add64 8 16 = 8 + 16).
Proof.
  apply (C6_subchunks_bound cursor_stream_position 10 iff_header skip_body 16
           (mkParser (mkCursor DATA 8) 0) 8 (mkParser (mkCursor DATA 8) 1)).
  - reflexivity.
  - vm_compute. reflexivity.
  - discriminate.
Defined.

(** ** Claim C7 *)

Lemma byte_val_range b : 0 <= byte_val b < 256.
Proof.
  unfold byte_val. pose proof (Byte.to_N_bounded b). lia.
Qed.

Lemma decode_le_nonneg bs : 0 <= decode_le bs.
Proof.
  induction bs as [|b bs IH]; cbn [decode_le]; [lia|]. pose proof (byte_val_range b). lia.
Qed.

Lemma low_byte b d : 0 <= b < 256 -> 0 <= d ->
  Z.land (b + 256 * d) 255 = b /\ Z.shiftr (b + 256 * d) 8 = d.
Proof.
  intros Hb Hd. split.
  - change 255 with (Z.ones 8). rewrite Z.land_ones by lia.
    change (2 ^ 8) with 256. rewrite (Z.mul_comm 256 d), Z.mod_add by lia.
    apply Z.mod_small; lia.
  - rewrite Z.shiftr_div_pow2 by lia. change (2 ^ 8) with 256.
    rewrite (Z.mul_comm 256 d), Z.div_add by lia.
    rewrite Z.div_small by lia. lia.
Qed.

Lemma swap_aux_decode_le bs acc :
  swap_aux (List.length bs) (decode_le bs) acc
  = fold_left (fun a b => a * 256 + byte_val b) bs acc.
Proof.
  revert acc. induction bs as [|b bs IH]; intros acc; cbn [swap_aux decode_le List.length fold_left]; [reflexivity|].
  destruct (low_byte (byte_val b) (decode_le bs) (byte_val_range b) (decode_le_nonneg bs)) as [E1 E2].
  rewrite E1, E2. apply IH.
Qed.

Lemma decode_be_rev bs : decode_be (rev bs) = decode_le bs.
Proof.
  unfold decode_be.
  induction bs as [|b bs IH]; [reflexivity|].
  cbn [rev decode_le]. rewrite fold_left_app, IH. cbn [fold_left]. lia.
Qed.

Lemma decode_le_rev bs : decode_le (rev bs) = decode_be bs.
Proof. rewrite <- (rev_involutive bs) at 2. symmetry. apply decode_be_rev. Qed.

(** C7: for every primitive integer type and any host byte order, [read_be]
    over bytes [bs] returns the value [read] returns over [rev bs]. *)
Theorem C7_read_be_reversed {R} rd native_little (ty : PrimTy) (st st' : Parser R) bs r1 r2 :
  List.length bs = size_of ty ->
  rd (size_of ty) (reader st) = (IoOk bs, r1) ->
  rd (size_of ty) (reader st') = (IoOk (rev bs), r2) ->
  fst (read_be R rd native_little ty st) = fst (read R rd native_little ty st').
Proof.
  intros Hlen E1 E2.
  unfold read_be, read, read_uninit_bits, bind, io, ret, swap_bytes.
  rewrite E1, E2. simpl. f_equal. f_equal. rewrite <- Hlen.
  destruct native_little.
  - rewrite swap_aux_decode_le. rewrite decode_le_rev. reflexivity.
  - replace (decode_be bs) with (decode_le (rev bs)) by apply decode_le_rev.
    rewrite <- (length_rev bs). rewrite swap_aux_decode_le. reflexivity.
Qed.

Lemma C7_witness :
  fst (c_read_be u32_t (mkParser (mkCursor [x00; x00; x00; x10] 0) 0))
  = fst (c_read u32_t (mkParser (mkCursor [x10; x00; x00; x00] 0) 0)).
Proof.
  apply (C7_read_be_reversed cursor_read_exact true u32_t _ _ [x00; x00; x00; x10]
           (mkCursor [x00; x00; x00; x10] 4) (mkCursor [x10; x00; x00; x00] 4));
    reflexivity.
Defined.

(** ** Claim C8 *)

(** C8 (counterexample): pushing at depth 255 wraps the [u8] to 0. *)
Lemma C8_counterexample :
  @push Pipe (mkParser (mkPipe []) 255) = (Ok tt, mkParser (mkPipe []) 0).
Proof. reflexivity. Qed.

(** C8 (amended): [push] never fails and no bound is checked; it adds 1
    modulo 256, so below 255 the depth goes up by exactly 1 and at 255 it
    wraps to 0. *)
Theorem C8_push_u8 {R} (st : Parser R) :
  0 <= depth st < 256 ->
  fst (push st) = Ok tt /\ reader (snd (push st)) = reader st /\
  (depth st < 255 -> depth (snd (push st)) = depth st + 1) /\
  (depth st = 255 -> depth (snd (push st)) = 0).
Proof.
  intros Hd. simpl. split; [reflexivity|]. split; [reflexivity|]. split.
  - intros Hlt. apply Z.mod_small. lia.
  - intros ->. reflexivity.
Qed.

Lemma C8_witness :
  (0 <= 3 < 256) /\
  fst (@push Pipe (mkParser (mkPipe []) 3)) = Ok tt /\
  reader (snd (@push Pipe (mkParser (mkPipe []) 3))) = mkPipe [] /\
  (3 < 255 -> depth (snd (@push Pipe (mkParser (mkPipe []) 3))) = 3 + 1) /\
  (3 = 255 -> depth (snd (@push Pipe (mkParser (mkPipe []) 3))) = 0).
Proof.
  split; [lia|]. apply (C8_push_u8 (mkParser (mkPipe []) 3)). simpl. lia.
Defined.

(** ** Claim C10 *)

(** C10: for [n <= i64::MAX], [skip n] seeks by [n] from the current
    position (the [as i64] cast keeps [n]); when it succeeds it returns [n],
    and under the [Seek] contract (a relative seek lands at the current
    position plus the offset) the position has gone up by exactly [n]. *)
Theorem C10_skip_returns_offset {R} sk sp n (st st' : Parser R) v p0 :
  0 <= n <= i64_max ->
  sp (reader st) = (IoOk p0, reader st) ->
  (forall r k p r', sk (Current k) r = (IoOk p, r') ->
     sp r' = (IoOk p, r') /\ forall q, sp r = (IoOk q, r) -> p = q + k) ->
  skip R sk n st = (Ok v, st') ->
  v = n /\ depth st' = depth st /\ sp (reader st') = (IoOk (p0 + n), reader st').
Proof.
  intros Hn Hp0 Hc E. unfold skip, bind, io, ret in E.
  assert (Ecast : u64_as_i64 n = n).
  { unfold u64_as_i64. destruct (n <=? i64_max) eqn:Eb; [reflexivity|].
    apply Z.leb_gt in Eb. lia. }
  rewrite Ecast in E.
  destruct (sk (Current n) (reader st)) as [[p|e] r'] eqn:Es; simpl in E; [|discriminate].
  injection E as <- <-. simpl. split; [reflexivity|]. split; [reflexivity|].
  destruct (Hc _ _ _ _ Es) as [Hs Hq]. rewrite (Hq p0 Hp0) in Hs. exact Hs.
Qed.

Lemma C10_witness :
  let st := mkParser (mkCursor DATA 8) 0 in
  fst (c_skip 16 st) = Ok 16 /\ pos (reader (snd (c_skip 16 st))) = 24.
Proof.
  destruct (C10_skip_returns_offset cursor_seek cursor_stream_position 16
              (mkParser (mkCursor DATA 8) 0) (mkParser (mkCursor DATA 24) 0) 16 8)
    as [Hv [_ Hs]].
  - unfold i64_max. lia.
  - reflexivity.
  - intros [data q] k p r' E. unfold cursor_seek, checked_add_signed in E. simpl in E.
    destruct ((0 <=? q + k) && (q + k <? u64_modulus)); [|discriminate].
    injection E as <- <-. split; [reflexivity|].
    intros q' Eq. injection Eq as <-. reflexivity.
  - vm_compute. reflexivity.
  - simpl. split; reflexivity.
Defined.

(** * Further properties of the crate *)

Definition c_seek_to := @seek_to Cursor cursor_seek.
Definition c_rewind := @rewind Cursor cursor_seek.

(** ** [ParserSeek::rewind] *)

(** For [n <= i64::MAX], [rewind n] seeks by [-n] and returns the new
    position (under the [Seek] contract, the old position minus [n]). *)
Theorem rewind_returns_new_position {R} sk sp n (st st' : Parser R) v p0 :
  0 <= n <= i64_max ->
  sp (reader st) = (IoOk p0, reader st) ->
  (forall r k p r', sk (Current k) r = (IoOk p, r') ->
     sp r' = (IoOk p, r') /\ forall q, sp r = (IoOk q, r) -> p = q + k) ->
  rewind R sk n st = (Ok v, st') ->
  v = p0 - n /\ depth st' = depth st /\ sp (reader st') = (IoOk v, reader st').
Proof.
  intros Hn Hp0 Hc E. unfold rewind, io in E.
  assert (Ecast : neg_i64 (u64_as_i64 n) = - n).
  { unfold u64_as_i64, neg_i64. destruct (n <=? i64_max) eqn:Eb; [|apply Z.leb_gt in Eb; lia].
    destruct (n =? - 2 ^ 63) eqn:Em; [apply Z.eqb_eq in Em; lia | reflexivity]. }
  rewrite Ecast in E.
  destruct (sk (Current (- n)) (reader st)) as [[p|e] r'] eqn:Es; inversion E; subst; clear E.
  simpl. destruct (Hc _ _ _ _ Es) as [Hs Hq]. pose proof (Hq p0 Hp0) as Hpq.
  split; [lia|]. split; [reflexivity|]. exact Hs.
Qed.

Lemma cursor_seek_contract :
  forall r k p r', cursor_seek (Current k) r = (IoOk p, r') ->
  cursor_stream_position r' = (IoOk p, r') /\
  forall q, cursor_stream_position r = (IoOk q, r) -> p = q + k.
Proof.
  intros [data q] k p r' E. unfold cursor_seek, checked_add_signed in E. simpl in E.
  destruct ((0 <=? q + k) && (q + k <? u64_modulus)); [|discriminate].
  injection E as <- <-. split; [reflexivity|].
  intros q' Eq. injection Eq as <-. reflexivity.
Qed.

Lemma rewind_returns_new_position_witness :
  let st := mkParser (mkCursor DATA 24) 0 in
  fst (c_rewind 4 st) = Ok 20 /\ pos (reader (snd (c_rewind 4 st))) = 20.
Proof.
  destruct (rewind_returns_new_position cursor_seek cursor_stream_position 4
              (mkParser (mkCursor DATA 24) 0) (mkParser (mkCursor DATA 20) 0) 20 24)
    as [Hv _].
  - unfold i64_max. lia.
  - reflexivity.
  - exact cursor_seek_contract.
  - vm_compute. reflexivity.
  - simpl. split; reflexivity.
Defined.

(** On a [Cursor], rewinding further back than offset 0 fails with an
    [InvalidInput] I/O error and leaves the parser as it was. *)
Theorem cursor_rewind_before_start (data : list byte) p n d :
  0 <= p < n -> n <= i64_max ->
  c_rewind n (mkParser (mkCursor data p) d)
  = (Err (IoError InvalidInput), mkParser (mkCursor data p) d).
Proof.
  intros Hp Hn. unfold c_rewind, rewind, io, cursor_seek, checked_add_signed, u64_as_i64, neg_i64.
  destruct (n <=? i64_max) eqn:Eb; [|apply Z.leb_gt in Eb; lia].
  destruct (n =? - 2 ^ 63) eqn:Em; [apply Z.eqb_eq in Em; lia|]. simpl.
  replace (0 <=? p + - n) with false by (symmetry; apply Z.leb_gt; lia). reflexivity.
Qed.

Lemma cursor_rewind_before_start_witness :
  c_rewind 9 (mkParser (mkCursor DATA 8) 0)
  = (Err (IoError InvalidInput), mkParser (mkCursor DATA 8) 0).
Proof. apply cursor_rewind_before_start; unfold i64_max; lia. Defined.

(** On a [Cursor], [skip n] followed by [rewind n] returns to the starting
    offset, which [rewind] returns. *)
Theorem cursor_skip_rewind (data : list byte) p n d :
  0 <= p -> 0 <= n <= i64_max -> p + n < u64_modulus ->
  (c_skip n ;;; c_rewind n) (mkParser (mkCursor data p) d)
  = (Ok p, mkParser (mkCursor data p) d).
Proof.
  intros Hp Hn Hs. unfold c_skip, c_rewind, skip, rewind, bind, io, ret, cursor_seek,
    checked_add_signed, u64_as_i64, neg_i64.
  destruct (n <=? i64_max) eqn:Eb; [|apply Z.leb_gt in Eb; lia].
  destruct (n =? - 2 ^ 63) eqn:Em; [apply Z.eqb_eq in Em; lia|]. simpl.
  replace ((0 <=? p + n) && (p + n <? u64_modulus)) with true
    by (symmetry; apply andb_true_iff; split; [apply Z.leb_le | apply Z.ltb_lt]; lia).
  simpl.
  replace ((0 <=? p + n + - n) && (p + n + - n <? u64_modulus)) with true
    by (symmetry; apply andb_true_iff; split; [apply Z.leb_le | apply Z.ltb_lt]; lia).
  replace (p + n + - n) with p by lia. reflexivity.
Qed.

Lemma cursor_skip_rewind_witness :
  (c_skip 16 ;;; c_rewind 16) (mkParser (mkCursor DATA 8) 0) = (Ok 8, mkParser (mkCursor DATA 8) 0).
Proof. apply cursor_skip_rewind; unfold i64_max, u64_modulus; lia. Defined.

(** On a [Cursor], [skip n] with [n > i64::MAX] reinterprets [n] as the
    negative offset [n - 2^64]: it moves the cursor back by [2^64 - n]
    bytes and still returns [n]. *)
Theorem cursor_skip_huge_moves_back (data : list byte) p n d :
  p < u64_modulus -> i64_max < n < u64_modulus -> 0 <= p + n - u64_modulus ->
  c_skip n (mkParser (mkCursor data p) d)
  = (Ok n, mkParser (mkCursor data (p + n - u64_modulus)) d).
Proof.
  intros Hu Hn Hp. unfold c_skip, skip, bind, io, ret, cursor_seek, checked_add_signed, u64_as_i64.
  destruct (n <=? i64_max) eqn:Eb; [apply Z.leb_le in Eb; lia|]. simpl.
  replace (p + (n - u64_modulus)) with (p + n - u64_modulus) by lia.
  replace ((0 <=? p + n - u64_modulus) && (p + n - u64_modulus <? u64_modulus)) with true
    by (symmetry; apply andb_true_iff; split; [apply Z.leb_le | apply Z.ltb_lt];
        unfold i64_max, u64_modulus in *; lia).
  reflexivity.
Qed.

Lemma cursor_skip_huge_moves_back_witness :
  c_skip (u64_modulus - 1) (mkParser (mkCursor DATA 8) 0)
  = (Ok (u64_modulus - 1), mkParser (mkCursor DATA 7) 0).
Proof.
  replace 7 with (8 + (u64_modulus - 1) - u64_modulus) by (unfold u64_modulus; lia).
  apply cursor_skip_huge_moves_back; unfold i64_max, u64_modulus; lia.
Defined.

(** ** [ParserRead::read] on a [Cursor] *)

(** A read of a [T] from a [Cursor] at offset [p] succeeds exactly when
    [size_of::<T>()] bytes remain, and then leaves the cursor at
    [p + size_of::<T>()]; otherwise it fails with [UnexpectedEof] and the
    cursor is left at the end of the data (also when [p] is past the end). *)
Theorem cursor_read_bounds (ty : PrimTy) (data : list byte) p d :
  (0 < size_of ty)%nat -> 0 <= p ->
  let len := Z.of_nat (List.length data) in
  (p + Z.of_nat (size_of ty) <= len ->
   exists v, c_read ty (mkParser (mkCursor data p) d)
             = (Ok v, mkParser (mkCursor data (p + Z.of_nat (size_of ty))) d)) /\
  (len < p + Z.of_nat (size_of ty) ->
   c_read ty (mkParser (mkCursor data p) d)
   = (Err (IoError UnexpectedEof), mkParser (mkCursor data len) d)).
Proof.
  intros Hn Hp len.
  unfold c_read, read, read_uninit_bits, bind, io, ret, cursor_read_exact, cursor_len. simpl.
  fold len.
  destruct (p <=? len) eqn:Ep.
  - apply Z.leb_le in Ep. rewrite length_skipn.
    destruct (Nat.leb (size_of ty) (List.length data - Z.to_nat p)) eqn:El.
    + apply Nat.leb_le in El. split; [intros _; eexists; reflexivity|].
      intros Hlt. exfalso. unfold len in *. lia.
    + apply Nat.leb_gt in El. split; [|intros _; reflexivity].
      intros Hle. exfalso. unfold len in *. lia.
  - apply Z.leb_gt in Ep. simpl.
    destruct (size_of ty) as [|n] eqn:Es; [lia|]. simpl.
    split; [intros Hle; exfalso; lia | intros _; reflexivity].
Qed.

Lemma cursor_read_bounds_witness :
  (exists v, c_read u32_t (mkParser (mkCursor DATA 20) 0)
             = (Ok v, mkParser (mkCursor DATA (20 + Z.of_nat (size_of u32_t))) 0)) /\
  (Z.of_nat (List.length DATA) < 20 + Z.of_nat (size_of u32_t) ->
   c_read u32_t (mkParser (mkCursor DATA 20) 0)
   = (Err (IoError UnexpectedEof), mkParser (mkCursor DATA (Z.of_nat (List.length DATA))) 0)).
Proof.
  destruct (cursor_read_bounds u32_t DATA 20 0) as [A B]; [simpl; lia | lia |].
  split; [apply A; simpl; lia | exact B].
Defined.

(** ** [ParserDepth::push] and [ParserDepth::pop] *)

(** On a [u8] depth, [pop] undoes [push] and [push] undoes [pop]; [pop] at
    depth 0 wraps to 255. *)
Theorem push_pop_inverse {R} (st : Parser R) :
  0 <= depth st < 256 ->
  snd (pop (snd (push st))) = st /\ snd (push (snd (pop st))) = st /\
  (depth st = 0 -> depth (snd (pop st)) = 255).
Proof.
  destruct st as [r d]. simpl. intros Hd. split; [|split].
  - rewrite Zminus_mod_idemp_l. replace (d + 1 - 1) with d by lia.
    rewrite Z.mod_small by lia. reflexivity.
  - rewrite Zplus_mod_idemp_l. replace (d - 1 + 1) with d by lia.
    rewrite Z.mod_small by lia. reflexivity.
  - intros ->. reflexivity.
Qed.

Lemma push_pop_inverse_witness :
  snd (pop (snd (push (mkParser (mkPipe []) 0)))) = mkParser (mkPipe []) 0 /\
  snd (push (snd (pop (mkParser (mkPipe []) 0)))) = mkParser (mkPipe []) 0 /\
  (0 = 0 -> depth (snd (@pop Pipe (mkParser (mkPipe []) 0))) = 255).
Proof. apply (push_pop_inverse (mkParser (mkPipe []) 0)). simpl. lia. Defined.

(** ** Ranges of decoded values *)

Lemma decode_le_bound bs : 0 <= decode_le bs < 2 ^ (8 * Z.of_nat (List.length bs)).
Proof.
  induction bs as [|b bs IH]; cbn [decode_le List.length]; [simpl; lia|].
  pose proof (byte_val_range b).
  replace (8 * Z.of_nat (S (List.length bs))) with (8 + 8 * Z.of_nat (List.length bs)) by lia.
  rewrite Z.pow_add_r by lia. change (2 ^ 8) with 256. nia.
Qed.





(** ** [read_be] always swaps the host order *)

(** [read_be] decodes the bytes most significant first on a little-endian
    host, but least significant first on a big-endian host, where [read]
    already decodes them most significant first. *)
Theorem read_be_swaps_host_order {R} rd ty (st : Parser R) bs r :
  List.length bs = size_of ty ->
  rd (size_of ty) (reader st) = (IoOk bs, r) ->
  fst (read_be R rd true ty st) = Ok (value_of ty (decode_be bs)) /\
  fst (read_be R rd false ty st) = Ok (value_of ty (decode_le bs)) /\
  fst (read R rd false ty st) = Ok (value_of ty (decode_be bs)).
Proof.
  intros Hl E. unfold read_be, read, read_uninit_bits, bind, io, ret. rewrite E. simpl.
  unfold swap_bytes. rewrite <- Hl. split; [|split; [|reflexivity]].
  - rewrite swap_aux_decode_le. reflexivity.
  - rewrite <- decode_le_rev, <- (length_rev bs), swap_aux_decode_le.
    fold (decode_be (rev bs)). rewrite decode_be_rev. reflexivity.
Qed.

Lemma read_be_swaps_host_order_witness :
  fst (read_be Cursor cursor_read_exact true u16_t (mkParser (mkCursor [x01; x02] 0) 0)) = Ok 258 /\
  fst (read_be Cursor cursor_read_exact false u16_t (mkParser (mkCursor [x01; x02] 0) 0)) = Ok 513 /\
  fst (read Cursor cursor_read_exact false u16_t (mkParser (mkCursor [x01; x02] 0) 0)) = Ok 258.
Proof.
  apply (read_be_swaps_host_order cursor_read_exact u16_t (mkParser (mkCursor [x01; x02] 0) 0)
           [x01; x02] (mkCursor [x01; x02] 2)); reflexivity.
Defined.

(** ** Where the errors of [parse_loop] come from *)

(** Every error [parse_loop] returns is [ParseError], an I/O error of
    [stream_position], or an error returned unchanged by the header parser
    or the body function. *)
Theorem parse_loop_error_source {R H} sp fuel (hdr : M R H) f total st e st' :
  parse_loop R sp fuel hdr f total st = (Err e, st') ->
  e = ParseError \/
  (exists r r' k, sp r = (IoErr k, r') /\ e = IoError k) \/
  (exists s s', hdr s = (Err e, s')) \/
  (exists h s s', f h s = (Err e, s')).
Proof.
  revert st. induction fuel as [|fuel IH]; intros st E; simpl in E; [discriminate|].
  unfold bind at 1 in E. destruct (hdr st) as [[h| e1|] st1] eqn:E1; try discriminate.
  2:{ injection E as -> ->. right; right; left. exists st, st'. exact E1. }
  unfold bind at 1 in E. destruct (position sp st1) as [[start| e1|] st2] eqn:E2; try discriminate.
  2:{ injection E as -> ->. unfold position, io in E2.
      destruct (sp (reader st1)) as [[|k] r'] eqn:Es; inversion E2; subst.
      right; left. exists (reader st1), r', k. split; [exact Es|reflexivity]. }
  unfold bind at 1 in E. destruct (f h st2) as [[size| e1|] st3] eqn:E3; try discriminate.
  2:{ injection E as -> ->. right; right; right. exists h, st2, st'. exact E3. }
  unfold bind at 1 in E. destruct (position sp st3) as [[p| e1|] st4] eqn:E4; try discriminate.
  2:{ injection E as -> ->. unfold position, io in E4.
      destruct (sp (reader st3)) as [[|k] r'] eqn:Es; inversion E4; subst.
      right; left. exists (reader st3), r', k. split; [exact Es|reflexivity]. }
  destruct (p =? total); [discriminate|].
  destruct (negb _); [injection E as -> ->; left; reflexivity|]. exact (IH _ E).
Qed.

Lemma parse_loop_error_source_witness :
  let e := IoError UnexpectedEof in
  e = ParseError \/
  (exists r r' k, cursor_stream_position r = (IoErr k, r') /\ e = IoError k) \/
  (exists s s', iff_header s = (Err e, s')) \/
  (exists h s s', skip_body h s = (Err e, s')).
Proof.
  apply (parse_loop_error_source cursor_stream_position 2 iff_header skip_body 14
           (cursor_parser SHORT) _ (mkParser (mkCursor SHORT 14) 0)).
  vm_compute. reflexivity.
Defined.

(** ** [parse] on a source shorter than one IFF header *)

(** With the IFF header of the tests, [parse] on fewer than 8 bytes fails
    with [UnexpectedEof] before any body runs, the cursor at the end. *)
Theorem parse_short_source_fails fuel (f : IFFHeader -> CM Z) (data : list byte) :
  (List.length data < 8)%nat ->
  c_parse (S fuel) iff_header f (cursor_parser data)
  = (Err (IoError UnexpectedEof), mkParser (mkCursor data (Z.of_nat (List.length data))) 0).
Proof.
  intros Hl.
  do 8 (destruct data as [|? data]; [reflexivity|]).
  simpl in Hl. lia.
Qed.

Lemma parse_short_source_fails_witness :
  c_parse 1 iff_header skip_body (cursor_parser [x46; x4f; x52; x4d; x00])
  = (Err (IoError UnexpectedEof), mkParser (mkCursor [x46; x4f; x52; x4d; x00] 5) 0).
Proof. apply (parse_short_source_fails 0 skip_body [x46; x4f; x52; x4d; x00]). simpl. lia. Defined.

(** ** A stream of flat IFF chunks *)

(** The layout of the tests' data: a four-byte tag, a four-byte big-endian
    payload length, then the payload. *)
Record RawChunk : Type := mkRawChunk { ctag : list byte; clen : list byte; cdata : list byte }.

Definition chunk_wf (c : RawChunk) : Prop :=
  List.length (ctag c) = 4%nat /\ List.length (clen c) = 4%nat /\
  Z.of_nat (List.length (cdata c)) = decode_be (clen c).

Definition encode_chunk (c : RawChunk) : list byte := ctag c ++ clen c ++ cdata c.

Definition encode_stream (cs : list RawChunk) : list byte := concat (map encode_chunk cs).

Lemma skipn_at_length (data l : list byte) p :
  0 <= p -> skipn (Z.to_nat p) data = l -> (0 < List.length l)%nat ->
  Z.of_nat (List.length data) = p + Z.of_nat (List.length l).
Proof.
  intros Hp E Hl. pose proof (length_skipn (Z.to_nat p) data) as L. rewrite E in L. lia.
Qed.

Lemma skipn_advance (data l : list byte) p k :
  0 <= p -> 0 <= k -> skipn (Z.to_nat p) data = l ->
  skipn (Z.to_nat (p + k)) data = skipn (Z.to_nat k) l.
Proof.
  intros Hp Hk E. rewrite <- E, skipn_skipn. f_equal. lia.
Qed.

Lemma cursor_read_exact_at (data l : list byte) p n :
  0 <= p -> skipn (Z.to_nat p) data = l -> (0 < n <= List.length l)%nat ->
  cursor_read_exact n (mkCursor data p) = (IoOk (firstn n l), mkCursor data (p + Z.of_nat n)).
Proof.
  intros Hp E Hn. pose proof (skipn_at_length data l p Hp E ltac:(lia)) as L.
  unfold cursor_read_exact, cursor_len. simpl.
  replace (p <=? Z.of_nat (List.length data)) with true by (symmetry; apply Z.leb_le; lia).
  rewrite E. replace (Nat.leb n (List.length l)) with true by (symmetry; apply Nat.leb_le; lia).
  reflexivity.
Qed.

Lemma skipn_length_app {A} (l1 l2 : list A) : skipn (List.length l1) (l1 ++ l2) = l2.
Proof. induction l1; simpl; auto. Qed.

Lemma firstn_length_app {A} (l1 l2 : list A) : firstn (List.length l1) (l1 ++ l2) = l1.
Proof. induction l1; simpl; f_equal; auto. Qed.

Lemma iff_header_at (data tag len rest : list byte) p d :
  0 <= p -> List.length tag = 4%nat -> List.length len = 4%nat ->
  skipn (Z.to_nat p) data = tag ++ len ++ rest ->
  iff_header (mkParser (mkCursor data p) d)
  = (Ok (mkIFFHeader tag (decode_be len)), mkParser (mkCursor data (p + 8)) d).
Proof.
  intros Hp Ht Hl E.
  assert (E4 : skipn (Z.to_nat (p + 4)) data = len ++ rest).
  { rewrite (skipn_advance data _ p 4 Hp ltac:(lia) E). change (Z.to_nat 4) with 4%nat.
    rewrite <- Ht. apply skipn_length_app. }
  assert (F1 : firstn 4 (tag ++ len ++ rest) = tag) by (rewrite <- Ht; apply firstn_length_app).
  assert (F2 : firstn 4 (len ++ rest) = len) by (rewrite <- Hl; apply firstn_length_app).
  assert (Hs : value_of u32_t (swap_bytes u32_t (decode_le len)) = decode_be len).
  { unfold swap_bytes. change (size_of u32_t) with 4%nat. rewrite <- Hl at 1.
    rewrite swap_aux_decode_le. reflexivity. }
  unfold iff_header, read_typeid, c_read_be, read_be, read_uninit_bits, bind, io, ret.
  cbn [reader depth size_of u32_t].
  rewrite (cursor_read_exact_at data _ p 4 Hp E) by (rewrite length_app; lia).
  rewrite F1. cbn [reader depth size_of u32_t].
  change (Z.of_nat 4) with 4.
  assert (Hp4 : 0 <= p + 4) by lia.
  assert (Hl4 : (0 < 4 <= List.length (len ++ rest))%nat) by (rewrite length_app; lia).
  rewrite (cursor_read_exact_at data _ (p + 4) 4 Hp4 E4 Hl4).
  rewrite F2, Hs. change (Z.of_nat 4) with 4. replace (p + 4 + 4) with (p + 8) by lia. reflexivity.
Qed.

Lemma skip_body_at (data : list byte) t q L d :
  0 <= q -> 0 <= L <= i64_max -> q + L < u64_modulus ->
  skip_body (mkIFFHeader t L) (mkParser (mkCursor data q) d)
  = (Ok L, mkParser (mkCursor data (q + L)) d).
Proof.
  intros Hq HL Hs. unfold skip_body, c_skip, skip, bind, io, ret, cursor_seek, checked_add_signed, u64_as_i64.
  simpl. replace (L <=? i64_max) with true by (symmetry; apply Z.leb_le; lia).
  replace ((0 <=? q + L) && (q + L <? u64_modulus)) with true
    by (symmetry; apply andb_true_iff; split; [apply Z.leb_le | apply Z.ltb_lt]; lia).
  reflexivity.
Qed.

Lemma encode_stream_cons c cs :
  encode_stream (c :: cs) = ctag c ++ clen c ++ (cdata c ++ encode_stream cs).
Proof. unfold encode_stream, encode_chunk. simpl. rewrite !app_assoc. reflexivity. Qed.

Lemma encode_stream_nonempty c cs :
  chunk_wf c -> (8 <= List.length (encode_stream (c :: cs)))%nat.
Proof.
  intros [Ht [Hl _]]. rewrite encode_stream_cons, !length_app. lia.
Qed.

Lemma flat_loop cs : forall fuel (data : list byte) p d,
  Forall chunk_wf cs -> cs <> [] -> (List.length cs <= fuel)%nat -> 0 <= p ->
  Z.of_nat (List.length data) <= i64_max ->
  skipn (Z.to_nat p) data = encode_stream cs ->
  c_parse_loop fuel iff_header skip_body (Z.of_nat (List.length data)) (mkParser (mkCursor data p) d)
  = (Ok tt, mkParser (mkCursor data (Z.of_nat (List.length data))) d).
Proof.
  induction cs as [|c cs IH]; intros fuel data p d Hwf Hne Hf Hp Hmax E; [contradiction|].
  destruct fuel as [|fuel]; [simpl in Hf; lia|].
  inversion Hwf as [|? ? Hc Hcs]; subst.
  destruct Hc as [Ht [Hl Hd]].
  set (L := decode_be (clen c)) in *.
  set (rest := encode_stream cs) in *.
  rewrite encode_stream_cons in E. fold rest in E.
  assert (Hlen : Z.of_nat (List.length data) = p + 8 + L + Z.of_nat (List.length rest)).
  { rewrite (skipn_at_length data _ p Hp E) by (rewrite !length_app; lia).
    rewrite !length_app. lia. }
  assert (HL : 0 <= L) by lia.
  unfold c_parse_loop.
  rewrite (parse_loop_step cursor_stream_position fuel iff_header skip_body _ _
             (mkIFFHeader (ctag c) L) (mkParser (mkCursor data (p + 8)) d)
             (p + 8) (mkParser (mkCursor data (p + 8)) d)
             L (mkParser (mkCursor data (p + 8 + L)) d)
             (p + 8 + L) (mkParser (mkCursor data (p + 8 + L)) d)).
  4:{ apply skip_body_at; unfold u64_modulus, i64_max in *; lia. }
  3,4: reflexivity.
  2:{ apply (iff_header_at data (ctag c) (clen c) (cdata c ++ rest)); assumption. }
  replace (add64 (p + 8) L) with (p + 8 + L)
    by (unfold add64; symmetry; apply Z.mod_small; unfold u64_modulus, i64_max in *; lia).
  rewrite Z.eqb_refl. simpl negb.
  destruct cs as [|c' cs'].
  - assert (Er : List.length rest = 0%nat) by reflexivity.
    rewrite Er in Hlen. simpl in Hlen. rewrite Z.add_0_r in Hlen. rewrite <- Hlen, Z.eqb_refl. reflexivity.
  - inversion Hcs as [|? ? Hc' _]; subst.
    pose proof (encode_stream_nonempty c' cs' Hc') as H8. fold rest in H8.
    replace (p + 8 + L =? Z.of_nat (List.length data)) with false by (symmetry; apply Z.eqb_neq; lia).
    apply IH; [assumption | discriminate | simpl in Hf |- *; lia | lia | assumption |].
    replace (p + 8 + L) with (p + (8 + L)) by lia.
    rewrite (skipn_advance data _ p (8 + L) Hp ltac:(lia) E).
    replace (Z.to_nat (8 + L)) with (List.length (ctag c ++ clen c ++ cdata c))
      by (rewrite !length_app; lia).
    replace (ctag c ++ clen c ++ cdata c ++ rest) with ((ctag c ++ clen c ++ cdata c) ++ rest)
      by (rewrite !app_assoc; reflexivity).
    apply skipn_length_app.
Qed.

(** For every nonempty sequence of well-formed flat IFF chunks (four-byte
    tag, four-byte big-endian payload length, payload) whose encoding fits
    in an [i64], [parse] with the tests' header and skipping body on a
    little-endian host succeeds and leaves the cursor at the end of the
    data, at depth 0. *)
Theorem parse_flat_stream (cs : list RawChunk) fuel :
  Forall chunk_wf cs -> cs <> [] -> (List.length cs <= fuel)%nat ->
  Z.of_nat (List.length (encode_stream cs)) <= i64_max ->
  c_parse fuel iff_header skip_body (cursor_parser (encode_stream cs))
  = (Ok tt, mkParser (mkCursor (encode_stream cs) (Z.of_nat (List.length (encode_stream cs)))) 0).
Proof.
  intros Hwf Hne Hf Hmax.
  unfold c_parse, parse, bind, io, cursor_parser, cursor_seek, checked_add_signed, cursor_len. simpl.
  rewrite Z.add_0_r.
  replace ((0 <=? Z.of_nat (List.length (encode_stream cs))) &&
           (Z.of_nat (List.length (encode_stream cs)) <? u64_modulus)) with true
    by (symmetry; apply andb_true_iff; split; [apply Z.leb_le | apply Z.ltb_lt];
        unfold u64_modulus, i64_max in *; lia).
  simpl. apply (flat_loop cs); try assumption; [lia | reflexivity].
Qed.

Definition TEST_CHUNK : RawChunk := mkRawChunk [x54; x45; x53; x54] [x00; x00; x00; x04] [x01; x02; x03; x04].
Definition EMPTY_CHUNK : RawChunk := mkRawChunk [x4e; x55; x4c; x4c] [x00; x00; x00; x00] [].

Lemma parse_flat_stream_witness :
  c_parse 2 iff_header skip_body (cursor_parser (encode_stream [TEST_CHUNK; EMPTY_CHUNK]))
  = (Ok tt, mkParser (mkCursor (encode_stream [TEST_CHUNK; EMPTY_CHUNK])
                       (Z.of_nat (List.length (encode_stream [TEST_CHUNK; EMPTY_CHUNK])))) 0).
Proof.
  apply parse_flat_stream.
  - repeat constructor.
  - discriminate.
  - simpl. lia.
  - vm_compute. discriminate.
Defined.

(** ** The custom parser loop of the tests ([IFFParserCustom]) *)

(** The overriding [parse_loop] of [IFFParserCustom]: the [loop] runs
    between [self.push()] and [self.pop()]; a [break] value is [Ok] of the
    inner [Res], and a [?] returns from the function (an [Err] of [M]),
    skipping [self.pop()].  The body's size gets 8 added back. *)
Fixpoint custom_loop {R H} sp (fuel : nat) (hdr : M R H) (f : H -> M R Z)
    (total_size : Z) : M R (Res unit) :=
  match fuel with
  | O => fun st => (NoFuel, st)
  | S fuel' =>
      header <- hdr ;;
      start <- position sp ;;
      size0 <- f header ;;
      let size := add64 size0 8 in
      let end_ := add64 start size in
      pos <- position sp ;;
      if pos =? total_size then ret (Ok tt)
      else if negb (pos =? end_) then ret (Err ParseError)
      else custom_loop sp fuel' hdr f total_size
  end.

(** [match loop { ... } { res => { self.pop(); res } }] after [self.push()] *)
Definition custom_parse_loop {R H} sp (fuel : nat) (hdr : M R H) (f : H -> M R Z)
    (total_size : Z) : M R unit :=
  push ;;;
  res <- custom_loop sp fuel hdr f total_size ;;
  pop ;;;
  (fun st => (res, st)).

(** [ChunkParser::parse] on [IFFParserCustom], which dispatches to the
    overriding loop. *)
Definition custom_parse {R H} sk sp (fuel : nat) (hdr : M R H) (f : H -> M R Z) : M R unit :=
  total_size <- io (sk (End 0)) ;;
  io (sk (Start 0)) ;;;
  custom_parse_loop sp fuel hdr f total_size.

Definition c_custom_loop {H} := @custom_loop Cursor H cursor_stream_position.
Definition c_custom_parse {H} := @custom_parse Cursor H cursor_seek cursor_stream_position.

(** [IFFHeader { typeid: self.read()?, length: self.read_be::<u32>()? - 8 }]
    ([u32] subtraction, wrapping). *)
Definition custom_header : CM IFFHeader :=
  t <- read_typeid ;; l <- c_read_be u32_t ;; ret (mkIFFHeader t ((l - 8) mod 2 ^ 32)).

(** [|parser, header| parser.skip(header.length as u64 + 8)] *)
Definition custom_body (h : IFFHeader) : CM Z := c_skip (length h + 8).

Lemma keeps_depth_custom_loop {R H} sp fuel (hdr : M R H) f total :
  keeps_depth hdr -> (forall h, keeps_depth (f h)) ->
  keeps_depth (custom_loop sp fuel hdr f total).
Proof.
  intros Hh Hf. induction fuel as [|fuel IH]; simpl.
  - intros st v st' _ E; discriminate.
  - apply keeps_depth_bind; [exact Hh|intros h].
    apply keeps_depth_bind; [apply keeps_depth_io|intros start].
    apply keeps_depth_bind; [apply Hf|intros size].
    apply keeps_depth_bind; [apply keeps_depth_io|intros p].
    destruct (p =? total); [apply keeps_depth_ret|].
    destruct (negb _); [apply keeps_depth_ret | exact IH].
Qed.

Lemma custom_header_keeps_depth : keeps_depth custom_header.
Proof.
  unfold custom_header, read_typeid, c_read_be, read_be, read_uninit_bits.
  repeat (apply keeps_depth_bind; intros; try apply keeps_depth_io; try apply keeps_depth_ret).
Qed.

Lemma custom_body_keeps_depth : forall h, keeps_depth (custom_body h).
Proof. intros h. apply keeps_depth_skip. Qed.

Lemma custom_header_iff st :
  custom_header st
  = bind iff_header (fun h => ret (mkIFFHeader (typeid h) ((length h - 8) mod 2 ^ 32))) st.
Proof.
  unfold custom_header, iff_header, bind.
  destruct (read_typeid st) as [[t| |] st1]; try reflexivity.
  destruct (c_read_be u32_t st1) as [[l| |] st2]; reflexivity.
Qed.

Lemma decode_be_bound bs : 0 <= decode_be bs < 2 ^ (8 * Z.of_nat (List.length bs)).
Proof. rewrite <- decode_le_rev, <- length_rev. apply decode_le_bound. Qed.

(** One round of the custom loop over a flat chunk whose length field is
    at least 8: the body lands at the chunk's end, 8 bytes short of the
    [end] the loop expects, so the loop breaks, with [Ok] exactly when the
    chunk ends the data and with [ParseError] otherwise. *)
Lemma custom_loop_flat_chunk fuel (data : list byte) c rest p d :
  chunk_wf c -> 8 <= decode_be (clen c) -> 0 <= p ->
  Z.of_nat (List.length data) <= i64_max ->
  skipn (Z.to_nat p) data = ctag c ++ clen c ++ cdata c ++ rest ->
  c_custom_loop (S fuel) custom_header custom_body (Z.of_nat (List.length data))
    (mkParser (mkCursor data p) d)
  = (Ok (if p + 8 + decode_be (clen c) =? Z.of_nat (List.length data)
         then Ok tt else Err ParseError),
     mkParser (mkCursor data (p + 8 + decode_be (clen c))) d).
Proof.
  intros [Ht [Hl Hd]] H8 Hp Hmax E.
  set (L := decode_be (clen c)) in *.
  assert (HL32 : L < 2 ^ 32) by (pose proof (decode_be_bound (clen c)) as B; rewrite Hl in B; exact (proj2 B)).
  assert (Hlen : Z.of_nat (List.length data) = p + 8 + L + Z.of_nat (List.length rest)).
  { rewrite (skipn_at_length data _ p Hp E) by (rewrite !length_app; lia).
    rewrite !length_app. lia. }
  unfold c_custom_loop. cbn [custom_loop].
  unfold bind at 1. rewrite custom_header_iff. unfold bind at 1.
  rewrite (iff_header_at data (ctag c) (clen c) (cdata c ++ rest) p d Hp Ht Hl E).
  unfold ret at 1.
  unfold bind at 1, position at 1, io at 1. cbn [cursor_stream_position reader depth pos].
  unfold bind at 1, custom_body. cbn [length]. fold L.
  replace ((L - 8) mod 2 ^ 32 + 8) with L
    by (rewrite Z.mod_small by lia; lia).
  change (c_skip L) with (skip_body (mkIFFHeader (ctag c) L)).
  rewrite (skip_body_at data (ctag c) (p + 8) L d) by (unfold u64_modulus, i64_max in *; lia).
  unfold bind at 1, position at 1, io at 1. cbn [cursor_stream_position reader depth pos].
  replace (add64 (p + 8) (add64 L 8)) with (p + 8 + L + 8)
    by (unfold add64; rewrite (Z.mod_small (L + 8)) by (unfold u64_modulus, i64_max in *; lia);
        rewrite Z.mod_small by (unfold u64_modulus, i64_max in *; lia); lia).
  replace (p + 8 + L =? p + 8 + L + 8) with false by (symmetry; apply Z.eqb_neq; lia).
  destruct (p + 8 + L =? Z.of_nat (List.length data)); reflexivity.
Qed.

(** ** Theorems on the custom loop *)

(** Whenever the custom loop leaves its [loop] by a [break] (with [Ok] or
    with the [ParseError] of a size mismatch), [self.pop()] runs and the
    depth is back to its value before the parse, for a header and body
    that keep the depth. *)
Theorem custom_parse_loop_restores_depth {R H} sp fuel (hdr : M R H) f total (st : Parser R) r st' :
  keeps_depth hdr -> (forall h, keeps_depth (f h)) -> 0 <= depth st < 256 ->
  custom_loop sp fuel hdr f total (snd (push st)) = (Ok r, st') ->
  custom_parse_loop sp fuel hdr f total st = (r, snd (pop st')) /\
  depth (snd (pop st')) = depth st.
Proof.
  intros Hh Hf Hd E. unfold custom_parse_loop, bind at 1. cbn [push].
  simpl snd in E. unfold bind at 1. rewrite E. split; [reflexivity|].
  assert (D0 : 0 <= (depth st + 1) mod 256 < 256) by (apply Z.mod_pos_bound; lia).
  pose proof (keeps_depth_custom_loop sp fuel hdr f total Hh Hf (mkParser (reader st) ((depth st + 1) mod 256)) r st' D0 E) as D.
  cbn [pop snd depth] in D |- *. rewrite D. rewrite Zminus_mod_idemp_l.
  replace (depth st + 1 - 1) with (depth st) by lia. apply Z.mod_small; lia.
Qed.

Lemma custom_parse_loop_restores_depth_witness :
  c_custom_loop 1 custom_header custom_body 24 (snd (@push Cursor (mkParser (mkCursor DATA 0) 0)))
  = (Ok (Ok tt), mkParser (mkCursor DATA 24) 1) /\
  custom_parse_loop cursor_stream_position 1 custom_header custom_body 24 (mkParser (mkCursor DATA 0) 0)
  = (Ok tt, snd (@pop Cursor (mkParser (mkCursor DATA 24) 1))) /\
  depth (snd (@pop Cursor (mkParser (mkCursor DATA 24) 1))) = depth (mkParser (mkCursor DATA 0) 0).
Proof.
  assert (E : c_custom_loop 1 custom_header custom_body 24 (snd (@push Cursor (mkParser (mkCursor DATA 0) 0)))
              = (Ok (Ok tt), mkParser (mkCursor DATA 24) 1)) by (vm_compute; reflexivity).
  split; [exact E|].
  apply (custom_parse_loop_restores_depth cursor_stream_position 1 custom_header custom_body 24
           (mkParser (mkCursor DATA 0) 0) (Ok tt) (mkParser (mkCursor DATA 24) 1)).
  - apply custom_header_keeps_depth.
  - apply custom_body_keeps_depth.
  - simpl. lia.
  - exact E.
Defined.

(** On fewer than 8 bytes the custom parse fails with [UnexpectedEof] from
    the header's [?], which returns before [self.pop()]: the depth stays at
    1 ([parse] with the default loop leaves it at 0). *)
Theorem custom_parse_short_source_keeps_push fuel (f : IFFHeader -> CM Z) (data : list byte) :
  (List.length data < 8)%nat ->
  c_custom_parse (S fuel) custom_header f (cursor_parser data)
  = (Err (IoError UnexpectedEof), mkParser (mkCursor data (Z.of_nat (List.length data))) 1).
Proof.
  intros Hl.
  do 8 (destruct data as [|? data]; [reflexivity|]).
  simpl in Hl. lia.
Qed.

Lemma custom_parse_short_source_keeps_push_witness :
  c_custom_parse 1 custom_header custom_body (cursor_parser [x46; x4f; x52; x4d])
  = (Err (IoError UnexpectedEof), mkParser (mkCursor [x46; x4f; x52; x4d] 4) 1).
Proof. apply (custom_parse_short_source_keeps_push 0 custom_body [x46; x4f; x52; x4d]). simpl. lia. Defined.

(** The custom test parser (header length minus 8, body skipping length
    plus 8, loop adding 8 to the size) handles exactly one flat chunk: on
    a single well-formed chunk whose length field is at least 8 it
    succeeds, and on two or more chunks it fails with [ParseError] after
    the first one; the depth is 0 afterwards in both cases. *)
Theorem custom_parse_flat_stream c cs fuel :
  Forall chunk_wf (c :: cs) -> 8 <= decode_be (clen c) ->
  Z.of_nat (List.length (encode_stream (c :: cs))) <= i64_max ->
  c_custom_parse (S fuel) custom_header custom_body (cursor_parser (encode_stream (c :: cs)))
  = (match cs with [] => Ok tt | _ :: _ => Err ParseError end,
     mkParser (mkCursor (encode_stream (c :: cs)) (8 + decode_be (clen c))) 0).
Proof.
  intros Hwf H8 Hmax. inversion Hwf as [|? ? Hc Hcs]; subst.
  set (data := encode_stream (c :: cs)) in *.
  unfold c_custom_parse, custom_parse, bind at 1, io at 1, cursor_parser.
  cbn [cursor_seek reader depth inner pos].
  unfold checked_add_signed, cursor_len. cbn [inner]. rewrite Z.add_0_r.
  replace ((0 <=? Z.of_nat (List.length data)) && (Z.of_nat (List.length data) <? u64_modulus)) with true
    by (symmetry; apply andb_true_iff; split; [apply Z.leb_le | apply Z.ltb_lt];
        unfold u64_modulus, i64_max in *; lia).
  unfold bind at 1, io at 1. cbn [cursor_seek reader depth inner].
  unfold custom_parse_loop, bind at 1, push. cbn [reader depth].
  change ((0 + 1) mod 256) with 1.
  unfold bind at 1.
  assert (E : skipn (Z.to_nat 0) data = ctag c ++ clen c ++ cdata c ++ encode_stream cs)
    by (apply encode_stream_cons).
  change (@custom_loop Cursor IFFHeader cursor_stream_position) with (@c_custom_loop IFFHeader).
  rewrite (custom_loop_flat_chunk fuel data c (encode_stream cs) 0 1 Hc H8 ltac:(lia) Hmax E).
  rewrite Z.add_0_l.
  unfold bind at 1, pop. cbn [reader depth]. change ((1 - 1) mod 256) with 0.
  destruct Hc as [Ht [Hl Hd]].
  assert (Hlen : Z.of_nat (List.length data) = 8 + decode_be (clen c) + Z.of_nat (List.length (encode_stream cs))).
  { unfold data. rewrite encode_stream_cons, !length_app. lia. }
  destruct cs as [|c' cs'].
  - change (List.length (encode_stream [])) with 0%nat in Hlen. simpl Z.of_nat in Hlen. rewrite Z.add_0_r in Hlen. rewrite <- Hlen, Z.eqb_refl. reflexivity.
  - inversion Hcs as [|? ? Hc' _]; subst.
    pose proof (encode_stream_nonempty c' cs' Hc') as H8'.
    replace (8 + decode_be (clen c) =? Z.of_nat (List.length data)) with false
      by (symmetry; apply Z.eqb_neq; lia).
    reflexivity.
Qed.

Definition DATA_CHUNK : RawChunk :=
  mkRawChunk [x46; x4f; x52; x4d] [x00; x00; x00; x10]
    [x54; x45; x53; x54; x54; x45; x53; x54; x00; x00; x00; x04; x01; x02; x03; x04].

Lemma custom_parse_flat_stream_witness :
  encode_stream [DATA_CHUNK] = DATA /\
  c_custom_parse 1 custom_header custom_body (cursor_parser (encode_stream [DATA_CHUNK]))
  = (Ok tt, mkParser (mkCursor (encode_stream [DATA_CHUNK]) 24) 0) /\
  c_custom_parse 1 custom_header custom_body (cursor_parser (encode_stream [DATA_CHUNK; TEST_CHUNK]))
  = (Err ParseError, mkParser (mkCursor (encode_stream [DATA_CHUNK; TEST_CHUNK]) 24) 0).
Proof.
  split; [reflexivity|]. split.
  - apply (custom_parse_flat_stream DATA_CHUNK [] 0).
    + repeat constructor.
    + vm_compute. discriminate.
    + vm_compute. discriminate.
  - apply (custom_parse_flat_stream DATA_CHUNK [TEST_CHUNK] 0).
    + repeat constructor.
    + vm_compute. discriminate.
    + vm_compute. discriminate.
Defined.

(** ** Claim C9 *)



